(** * DataStore: an LRU cache in front of a sqlite table (src/include/DataStore.h)

    Shallow embedding of the class [DataStore].  The C++ object holds
    - [m_cache_list : std::list<key_val_pair>]  (front = most recently used),
    - [m_cache_map : std::unordered_map<std::string, list_itr>],
    - [m_modification_map : std::unordered_map<std::string, bool>],
    - [m_max_cache_size : size_t] and the database handle [m_db].

    A [list_itr] is a stable reference to a list node; we give every node a
    unique identifier (allocated from [next_node]) and the index maps a key
    to the identifier of its node.  The sqlite database is modelled as the
    table [data (key, value)], oracles for the errors [sqlite3_exec] and
    [sqlite3_prepare_v2]/[sqlite3_step] may report, and the log of the
    write statements ([INSERT OR REPLACE]) that were sent to
    [sqlite3_exec], each one with the rows spliced into it. *)

From stdpp Require Import base gmap strings list fin_maps.
From Stdlib Require Import List Permutation Ascii.
From Stdlib Require String.
Import ListNotations.
Local Open Scope string_scope.
Local Open Scope list_scope.

(** ** The persistent store (the sqlite table [data]) *)

Record Db := mkDb {
  tbl : gmap string string;          (** rows of the table [data] *)
  fails : string -> bool;            (** the [SELECT] for this key errors *)
  write_fails : string -> bool;
    (** [sqlite3_exec] reports an error (I/O, lock, ...) for this
        well-formed statement text *)
  garbled_exec : string -> gmap string string -> option (gmap string string);
    (** outcome of a statement text in which a spliced literal holds a
        quote (it ends the literal early and the rest is parsed as SQL) or
        a NUL (it cuts the C string): [None] is an error, [Some t] the table
        it leaves *)
  db_log : list (list (string * string))
    (** [INSERT OR REPLACE] statements executed, oldest first *)
}.

(** The text built by [writeToDB] and [purgeToStorage]: every row is
    spliced as [( 'key', 'value' )], unescaped; the rows are separated by
    commas and the last comma is overwritten by [;] ([seekp(-1)]). *)
Definition sql_row (kv : string * string) : string :=
  ("( '" ++ kv.1 ++ "', '" ++ kv.2 ++ "' )")%string.

Fixpoint sql_rows (rows : list (string * string)) : string :=
  match rows with
  | [] => ""
  | [r] => sql_row r
  | r :: rs => (sql_row r ++ "," ++ sql_rows rs)%string
  end.

Definition upsert_sql (rows : list (string * string)) : string :=
  ("INSERT OR REPLACE INTO data (key, value) VALUES " ++ sql_rows rows ++ ";")%string.

(** A literal spliced between quotes reads back as itself unless it holds
    a quote (ASCII 39) or a NUL (ASCII 0). *)
Definition unsafe_char (c : ascii) : bool :=
  Ascii.eqb c (ascii_of_nat 39) || Ascii.eqb c (ascii_of_nat 0).

Definition safe_literal (x : string) : bool :=
  negb (existsb unsafe_char (String.list_ascii_of_string x)).

Definition safe_rows (rows : list (string * string)) : bool :=
  forallb (fun kv => safe_literal kv.1 && safe_literal kv.2) rows.

(** Executing the [INSERT OR REPLACE] statement built from [rows]: it is
    issued (logged).  With safe literals it commits all rows unless
    [sqlite3_exec] reports an error; otherwise its outcome is that of the
    garbled text. *)
Definition exec_upsert (db : Db) (rows : list (string * string)) : Db * bool :=
  let sql := upsert_sql rows in
  let log' := (db_log db ++ [rows])%list in
  let with_tbl t := mkDb t (fails db) (write_fails db) (garbled_exec db) log' in
  if safe_rows rows then
    if write_fails db sql then (with_tbl (tbl db), false)
    else (with_tbl (fold_left (fun t kv => <[kv.1 := kv.2]> t) rows (tbl db)), true)
  else
    match garbled_exec db sql (tbl db) with
    | Some t => (with_tbl t, true)
    | None => (with_tbl (tbl db), false)
    end.

(** [SELECT value FROM data WHERE key = k LIMIT 1]: [None] when
    [sqlite3_prepare_v2]/[sqlite3_step] report an error, otherwise the
    rows produced (the key is the primary key, so at most one). *)
Definition exec_select (db : Db) (key : string) : option (list string) :=
  if fails db key then None
  else Some (match tbl db !! key with Some v => [v] | None => [] end).

(** ** The cache object *)

Definition node : Type := nat * (string * string).   (** (node id, key_val_pair) *)

Record DataStore := mkDS {
  m_cache_list : list node;
  m_cache_map : gmap string nat;
  m_modification_map : gmap string bool;
  m_max_cache_size : nat;
  m_db : Db;
  next_node : nat   (** allocator of fresh list nodes *)
}.

(** Constructor (after a successful [sqlite3_open] and [CREATE TABLE]). *)
Definition init (max_cache_size : nat) (db : Db) : DataStore :=
  mkDS [] ∅ ∅ max_cache_size db 0.

Definition key_eq_dec (x y : string) : {x = y} + {x <> y} := decide (x = y).

Definition node_key (n : node) : string := n.2.1.
Definition node_val (n : node) : string := n.2.2.

(** The keys of the recency list, front first. *)
Definition keys (s : DataStore) : list string := map node_key (m_cache_list s).

(** [std::list::erase(it)]: remove the node [it] designates. *)
Fixpoint erase_node (id : nat) (l : list node) : list node :=
  match l with
  | [] => []
  | n :: l' => if Nat.eqb n.1 id then l' else n :: erase_node id l'
  end.

(** Dereferencing an iterator: the node with this id.  On a reachable
    state the index never dangles (see [Inv]). *)
Fixpoint find_node (id : nat) (l : list node) : option node :=
  match l with
  | [] => None
  | n :: l' => if Nat.eqb n.1 id then Some n else find_node id l'
  end.

Definition deref_val (id : nat) (l : list node) : string :=
  match find_node id l with Some n => node_val n | None => "" end.

(** [m_cache_list.splice(begin, m_cache_list, it)]: move node [it] to the front. *)
Definition splice_front (id : nat) (l : list node) : list node :=
  match find_node id l with
  | Some n => n :: erase_node id l
  | None => l
  end.

(** [std::list::back] / [pop_back]. *)
Fixpoint back (l : list node) : option node :=
  match l with
  | [] => None
  | [n] => Some n
  | _ :: l' => back l'
  end.
Definition pop_back (l : list node) : list node := removelast l.

(** [isModified]: absent keys are clean. *)
Definition isModified (mm : gmap string bool) (key : string) : bool :=
  match mm !! key with Some b => b | None => false end.

(** [writeToDB]: a single-row [INSERT OR REPLACE]. *)
Definition writeToDB (db : Db) (key value : string) : Db * bool :=
  exec_upsert db [(key, value)].

(** [readFromDB(key, value)]: returns the success flag and the final
    content of the out-parameter [value]; the [while] loop assigns it
    once per row. *)
Definition readFromDB (db : Db) (key value : string) : bool * string :=
  match exec_select db key with
  | None => (false, value)
  | Some rows => (true, fold_left (fun _ r => r) rows value)
  end.

(** [DataStore::put], statement by statement. *)
Definition put (s : DataStore) (key value : string) : DataStore :=
  let mapItr := m_cache_map s !! key in
  let id := next_node s in
  (* m_cache_list.push_front(key_val_pair(key, value)) *)
  let l1 := (id, (key, value)) :: m_cache_list s in
  (* if found: m_cache_list.erase(mapItr->second) *)
  let l2 := match mapItr with Some old => erase_node old l1 | None => l1 end in
  (* m_cache_map[key] = m_cache_list.begin() *)
  let cm1 := <[key := id]> (m_cache_map s) in
  (* m_modification_map[key] = true *)
  let mm1 := <[key := true]> (m_modification_map s) in
  if Nat.ltb (m_max_cache_size s) (size cm1) then
    match back l2 with
    | None => (* rbegin() of an empty list: unreachable, see [Inv] *)
        mkDS l2 cm1 mm1 (m_max_cache_size s) (m_db s) (S id)
    | Some lastElem =>
        let cm2 := delete (node_key lastElem) cm1 in
        let mm2 := delete (node_key lastElem) mm1 in
        let l3 := pop_back l2 in
        let db' := if isModified mm2 (node_key lastElem)
                   then (writeToDB (m_db s) (node_key lastElem) (node_val lastElem)).1
                   else m_db s in
        mkDS l3 cm2 mm2 (m_max_cache_size s) db' (S id)
    end
  else mkDS l2 cm1 mm1 (m_max_cache_size s) (m_db s) (S id).

(** [DataStore::get]: the new state and the returned string. *)
Definition get (s : DataStore) (key : string) : DataStore * string :=
  match m_cache_map s !! key with
  | Some id =>
      (mkDS (splice_front id (m_cache_list s)) (m_cache_map s)
            (m_modification_map s) (m_max_cache_size s) (m_db s) (next_node s),
       deref_val id (m_cache_list s))
  | None =>
      let '(success, value) := readFromDB (m_db s) key "" in
      if success then
        let s1 := put s key value in
        let s2 := mkDS (m_cache_list s1) (m_cache_map s1)
                       (<[key := false]> (m_modification_map s1))
                       (m_max_cache_size s1) (m_db s1) (next_node s1) in
        match m_cache_map s2 !! key with
        | Some id => (s2, deref_val id (m_cache_list s2))
        | None => (s2, "")
        end
      else (s, "")
  end.

Definition isInCache (s : DataStore) (key : string) : bool :=
  match m_cache_map s !! key with Some _ => true | None => false end.

Definition ds_size (s : DataStore) : nat := size (m_cache_map s).

(** [purgeToStorage]: the rows of the batched statement are the modified
    entries, in list order; the statement is executed only if one was added. *)
Definition purge_rows (s : DataStore) : list (string * string) :=
  map snd (filter (fun n => isModified (m_modification_map s) (node_key n))
                  (m_cache_list s)).

Definition purgeToStorage (s : DataStore) : Db * bool :=
  match purge_rows s with
  | [] => (m_db s, true)
  | rows => exec_upsert (m_db s) rows
  end.

(** [~DataStore]: purge if the list is nonempty, then close the database;
    the result is the database left behind. *)
Definition destroy (s : DataStore) : Db :=
  match m_cache_list s with
  | [] => m_db s
  | _ => (purgeToStorage s).1
  end.

(** Public operations and runs of them. *)
Inductive op :=
| OPut (k v : string)
| OGet (k : string)
| OIsInCache (k : string)
| OSize.

Definition step (s : DataStore) (o : op) : DataStore :=
  match o with
  | OPut k v => put s k v
  | OGet k => (get s k).1
  | OIsInCache _ => s
  | OSize => s
  end.

Fixpoint run (s : DataStore) (ops : list op) : DataStore :=
  match ops with
  | [] => s
  | o :: ops' => run (step s o) ops'
  end.

Definition empty_db : Db := mkDb ∅ (fun _ => false) (fun _ => false) (fun _ _ => None) [].

Example put_two_cap1 :
  keys (put (put (init 1 empty_db) "1" "one") "2" "two") = ["2"].
Proof. reflexivity. Qed.

(** ** Lemmas on the list primitives *)

Lemma find_node_perm id l n :
  find_node id l = Some n -> Permutation (n :: erase_node id l) l.
Proof.
  induction l as [|m l IH]; simpl; [discriminate|].
  destruct (Nat.eqb m.1 id); intros H.
  - injection H as <-. reflexivity.
  - rewrite perm_swap. constructor. auto.
Qed.

Lemma find_node_In id l n : find_node id l = Some n -> In n l /\ n.1 = id.
Proof.
  induction l as [|m l IH]; simpl; [discriminate|].
  destruct (Nat.eqb m.1 id) eqn:E; intros H.
  - injection H as <-. apply Nat.eqb_eq in E. auto.
  - destruct (IH H). auto.
Qed.

Lemma find_node_exists id l x : In x l -> x.1 = id -> exists n, find_node id l = Some n.
Proof.
  induction l as [|m l IH]; simpl; [tauto|].
  intros Hin Hx. destruct (Nat.eqb m.1 id) eqn:E; [eauto|].
  destruct Hin as [<-|Hin]; [apply Nat.eqb_neq in E; congruence | auto].
Qed.

Lemma nodup_fst_eq (l : list node) a b :
  NoDup (map fst l) -> In a l -> In b l -> a.1 = b.1 -> a = b.
Proof.
  induction l as [|m l IH]; simpl; [tauto|].
  intros Hnd Ha Hb Hab. inversion Hnd as [|? ? Hm Hnd']; subst.
  destruct Ha as [<-|Ha], Hb as [<-|Hb]; auto.
  - exfalso. apply Hm. rewrite Hab. apply in_map. exact Hb.
  - exfalso. apply Hm. rewrite <- Hab. apply in_map. exact Ha.
Qed.

Lemma back_split l b : back l = Some b -> l = pop_back l ++ [b].
Proof.
  induction l as [|m l IH]; [discriminate|].
  destruct l as [|m' l]; simpl.
  - now intros [= ->].
  - intros H. simpl in IH. rewrite (IH H) at 1. reflexivity.
Qed.

Lemma back_None l : back l = None -> l = [].
Proof.
  induction l as [|m l IH]; [reflexivity|].
  destruct l as [|m' l]; simpl; [discriminate|].
  intros H. specialize (IH H). discriminate.
Qed.

Lemma back_cons m l : l <> [] -> back (m :: l) = back l.
Proof. destruct l; [congruence|reflexivity]. Qed.

Lemma pop_back_cons m l : l <> [] -> pop_back (m :: l) = m :: pop_back l.
Proof. destruct l; [congruence|reflexivity]. Qed.

Lemma map_removelast {A B} (f : A -> B) (l : list A) :
  map f (removelast l) = removelast (map f l).
Proof.
  induction l as [|a l IH]; [reflexivity|].
  destruct l as [|a' l]; [reflexivity|].
  simpl in *. rewrite IH. reflexivity.
Qed.

Lemma erase_node_keys (l : list node) old k v0 :
  NoDup (map fst l) -> NoDup (map node_key l) -> In (old, (k, v0)) l ->
  map node_key (erase_node old l) = remove key_eq_dec k (map node_key l).
Proof.
  induction l as [|n l IH]; simpl; [tauto|].
  intros Hids Hkeys Hin.
  inversion Hids as [|? ? Hn Hids']; inversion Hkeys as [|? ? Hkn Hkeys']; subst.
  destruct (Nat.eqb n.1 old) eqn:E.
  - apply Nat.eqb_eq in E.
    destruct Hin as [->|Hin].
    + change (node_key (old, (k, v0))) with k in *. simpl.
      destruct (key_eq_dec k k) as [_|]; [|congruence].
      symmetry. apply notin_remove. exact Hkn.
    + exfalso. apply Hn. rewrite E. exact (in_map fst l _ Hin).
  - apply Nat.eqb_neq in E.
    destruct Hin as [->|Hin]; [simpl in E; congruence|].
    simpl. destruct (key_eq_dec k (node_key n)) as [Heq|Hne].
    + exfalso. apply Hkn. rewrite <- Heq.
      exact (in_map node_key l _ Hin).
    + f_equal. auto.
Qed.

(** ** The representation invariant of reachable states *)

(** Node ids are unique, keys are unique, the index maps a key to the id
    of the node holding it (and only such), ids are below the allocator,
    and the index has as many entries as the list has nodes. *)
Record Inv_core (L : list node) (cm : gmap string nat) (nx : nat) : Prop := {
  ic_ids : NoDup (map fst L);
  ic_keys : NoDup (map node_key L);
  ic_index : forall k id, cm !! k = Some id <-> exists v, In (id, (k, v)) L;
  ic_fresh : forall n, In n L -> n.1 < nx;
  ic_size : size cm = length L
}.

Definition Inv (s : DataStore) : Prop :=
  Inv_core (m_cache_list s) (m_cache_map s) (next_node s) /\
  length (m_cache_list s) <= m_max_cache_size s.

Lemma Inv_core_perm L L' cm nx :
  Permutation L L' -> Inv_core L cm nx -> Inv_core L' cm nx.
Proof.
  intros HP [Hids Hkeys Hidx Hf Hsz]. constructor.
  - eapply Permutation_NoDup; [apply Permutation_map; exact HP | exact Hids].
  - eapply Permutation_NoDup; [apply Permutation_map; exact HP | exact Hkeys].
  - intros k id. rewrite Hidx. split; intros [v Hv]; exists v.
    + eapply Permutation_in; eauto.
    + eapply Permutation_in; [symmetry; exact HP | exact Hv].
  - intros n Hn. apply Hf. eapply Permutation_in; [symmetry; exact HP | exact Hn].
  - rewrite Hsz. apply Permutation_length. exact HP.
Qed.

Lemma Inv_core_insert L cm i k v :
  Inv_core L cm i -> cm !! k = None ->
  Inv_core ((i, (k, v)) :: L) (<[k := i]> cm) (S i).
Proof.
  intros [Hids Hkeys Hidx Hf Hsz] Hk. constructor; simpl.
  - constructor; [|exact Hids].
    intros Hin. apply in_map_iff in Hin as [n [Hn1 Hn2]].
    specialize (Hf n Hn2). lia.
  - constructor; [|exact Hkeys].
    intros Hin. apply in_map_iff in Hin as [[id [k' v']] [Hn1 Hn2]].
    unfold node_key in Hn1; simpl in Hn1; subst k'.
    assert (cm !! k = Some id) by (apply Hidx; eauto). congruence.
  - intros k' id. destruct (decide (k = k')) as [<-|Hne].
    + rewrite lookup_insert_eq. split.
      * intros [= <-]. eauto.
      * intros [v' [Heq|Hin]]; [congruence|].
        assert (cm !! k = Some id) by (apply Hidx; eauto). congruence.
    + rewrite lookup_insert_ne by exact Hne. rewrite Hidx.
      split; intros [v' Hv']; exists v'; [now right|].
      destruct Hv' as [Heq|Hv']; [congruence|exact Hv'].
  - intros n [<-|Hn]; simpl; [lia|]. specialize (Hf n Hn). lia.
  - rewrite map_size_insert_None by exact Hk. simpl. lia.
Qed.

Lemma Inv_core_update L cm i k v old :
  Inv_core L cm i -> cm !! k = Some old ->
  exists v0, find_node old L = Some (old, (k, v0)) /\
  Inv_core ((i, (k, v)) :: erase_node old L) (<[k := i]> cm) (S i).
Proof.
  intros HI Hk. pose proof HI as [Hids Hkeys Hidx Hf Hsz].
  destruct (proj1 (Hidx k old) Hk) as [v0 Hin0].
  destruct (find_node_exists old L _ Hin0 eq_refl) as [n Hn].
  destruct (find_node_In _ _ _ Hn) as [HnIn Hn1].
  assert (n = (old, (k, v0))) as -> by (eapply nodup_fst_eq; eauto).
  exists v0. split; [exact Hn|].
  apply (Inv_core_perm _ _ _ _ (Permutation_sym (find_node_perm _ _ _ Hn))) in HI.
  destruct HI as [Hids' Hkeys' Hidx' Hf' Hsz'].
  inversion Hids' as [|? ? Hold HidsE]; inversion Hkeys' as [|? ? HkE HkeysE]; subst.
  change (node_key (old, (k, v0))) with k in HkE.
  constructor; simpl.
  - constructor; [|exact HidsE].
    intros Hin. apply in_map_iff in Hin as [n [Hn1' Hn2]].
    specialize (Hf' n (or_intror Hn2)). lia.
  - constructor; [exact HkE | exact HkeysE].
  - intros k' id. destruct (decide (k = k')) as [<-|Hne].
    + rewrite lookup_insert_eq. split.
      * intros [= <-]. eauto.
      * intros [v' [Heq|Hin]]; [congruence|].
        exfalso. apply HkE. exact (in_map node_key _ _ Hin).
    + rewrite lookup_insert_ne by exact Hne. rewrite Hidx'.
      split; intros [v' [Heq|Hin]];
        solve [congruence | exists v'; now right].
  - intros n' [<-|Hn']; simpl; [lia|]. specialize (Hf' n' (or_intror Hn')). lia.
  - rewrite map_size_insert_Some by eauto. rewrite Hsz'. reflexivity.
Qed.

Lemma Inv_core_evict L cm nx b :
  Inv_core L cm nx -> back L = Some b ->
  Inv_core (pop_back L) (delete (node_key b) cm) nx /\
  length L = S (length (pop_back L)).
Proof.
  intros HI Hb. pose proof (back_split _ _ Hb) as HL.
  remember (pop_back L) as P eqn:HP. clear HP. subst L.
  rewrite length_app. simpl. split; [|lia].
  apply (Inv_core_perm _ _ _ _ (Permutation_sym (Permutation_cons_append P b))) in HI.
  destruct HI as [Hids Hkeys Hidx Hf Hsz].
  inversion Hids as [|? ? Hb1 HidsP]; inversion Hkeys as [|? ? Hbk HkeysP]; subst.
  destruct b as [bi [bk bv]]. change (node_key (bi, (bk, bv))) with bk in *.
  constructor.
  - exact HidsP.
  - exact HkeysP.
  - intros k' id. destruct (decide (bk = k')) as [<-|Hne].
    + rewrite lookup_delete_eq. split; [discriminate|].
      intros [v Hin]. exfalso. apply Hbk. exact (in_map node_key _ _ Hin).
    + rewrite lookup_delete_ne by exact Hne. rewrite Hidx.
      split; intros [v Hv]; exists v; [|now right].
      destruct Hv as [Heq|Hv]; [congruence|exact Hv].
  - intros n Hn. apply Hf. now right.
  - rewrite map_size_delete_Some.
    + rewrite Hsz. reflexivity.
    + exists bi. apply Hidx. exists bv. now left.
Qed.

(** ** The three paths of [put] *)

Lemma put_resident s k v old :
  m_cache_map s !! k = Some old -> Nat.eqb (next_node s) old = false ->
  size (<[k := next_node s]> (m_cache_map s)) <= m_max_cache_size s ->
  put s k v = mkDS ((next_node s, (k, v)) :: erase_node old (m_cache_list s))
                   (<[k := next_node s]> (m_cache_map s))
                   (<[k := true]> (m_modification_map s))
                   (m_max_cache_size s) (m_db s) (S (next_node s)).
Proof.
  intros Hk Hne Hsz. unfold put. cbv zeta. rewrite Hk. simpl. rewrite Hne.
  rewrite (proj2 (Nat.ltb_ge _ _) Hsz). reflexivity.
Qed.

Lemma put_fresh_fits s k v :
  m_cache_map s !! k = None ->
  size (<[k := next_node s]> (m_cache_map s)) <= m_max_cache_size s ->
  put s k v = mkDS ((next_node s, (k, v)) :: m_cache_list s)
                   (<[k := next_node s]> (m_cache_map s))
                   (<[k := true]> (m_modification_map s))
                   (m_max_cache_size s) (m_db s) (S (next_node s)).
Proof.
  intros Hk Hsz. unfold put. cbv zeta. rewrite Hk.
  rewrite (proj2 (Nat.ltb_ge _ _) Hsz). reflexivity.
Qed.

(** On eviction the dirty flag of the victim is erased before it is
    consulted, so the database is left untouched. *)
Lemma put_fresh_evict s k v b :
  m_cache_map s !! k = None ->
  m_max_cache_size s < size (<[k := next_node s]> (m_cache_map s)) ->
  back ((next_node s, (k, v)) :: m_cache_list s) = Some b ->
  put s k v = mkDS (pop_back ((next_node s, (k, v)) :: m_cache_list s))
                   (delete (node_key b) (<[k := next_node s]> (m_cache_map s)))
                   (delete (node_key b) (<[k := true]> (m_modification_map s)))
                   (m_max_cache_size s) (m_db s) (S (next_node s)).
Proof.
  intros Hk Hsz Hb. unfold put. cbv zeta. rewrite Hk.
  rewrite (proj2 (Nat.ltb_lt _ _) Hsz). rewrite Hb.
  unfold isModified. rewrite lookup_delete_eq. reflexivity.
Qed.

(** [put] never touches the database: every eviction finds its victim
    already clean. *)
Lemma put_db s k v : m_db (put s k v) = m_db s.
Proof.
  unfold put. cbv zeta.
  destruct (Nat.ltb _ _); [|reflexivity].
  destruct (back _) as [b|]; [|reflexivity].
  unfold isModified. rewrite lookup_delete_eq. reflexivity.
Qed.

Lemma put_cap s k v : m_max_cache_size (put s k v) = m_max_cache_size s.
Proof.
  unfold put. cbv zeta.
  destruct (Nat.ltb _ _); [|reflexivity].
  destruct (back _); reflexivity.
Qed.

(** ** Every public operation preserves [Inv] *)

Lemma put_Inv s k v : Inv s -> Inv (put s k v).
Proof.
  intros [HI Hcap]. destruct (m_cache_map s !! k) as [old|] eqn:Hk.
  - destruct (Inv_core_update _ _ _ k v old HI Hk) as [v0 [Hfind HI']].
    apply find_node_In in Hfind as [Hin _].
    pose proof (ic_fresh _ _ _ HI _ Hin) as Hold; simpl in Hold.
    assert (Hsz : size (<[k := next_node s]> (m_cache_map s)) = length (m_cache_list s)).
    { rewrite map_size_insert_Some by eauto. apply (ic_size _ _ _ HI). }
    rewrite (put_resident s k v old Hk) by first [apply Nat.eqb_neq; lia | lia].
    pose proof (ic_size _ _ _ HI') as Hsz'.
    split; [exact HI'|]. simpl in *. lia.
  - pose proof (Inv_core_insert _ _ _ k v HI Hk) as HI'.
    pose proof (ic_size _ _ _ HI') as Hsz. simpl in Hsz.
    destruct (decide (size (<[k := next_node s]> (m_cache_map s)) <= m_max_cache_size s))
      as [Hle|Hgt].
    + rewrite put_fresh_fits by assumption.
      split; [exact HI'|]. simpl. lia.
    + destruct (back ((next_node s, (k, v)) :: m_cache_list s)) as [b|] eqn:Hb;
        [|apply back_None in Hb; discriminate].
      rewrite (put_fresh_evict s k v b) by first [assumption | lia].
      destruct (Inv_core_evict _ _ _ b HI' Hb) as [HI'' Hlen].
      split; [exact HI''|]. simpl in *. lia.
Qed.

Lemma get_Inv s k : Inv s -> Inv (get s k).1.
Proof.
  intros HInv. pose proof HInv as [HI Hcap]. unfold get.
  destruct (m_cache_map s !! k) as [id|] eqn:Hk.
  - destruct (proj1 (ic_index _ _ _ HI k id) Hk) as [v0 Hin].
    destruct (find_node_exists id _ _ Hin eq_refl) as [n Hn].
    pose proof (find_node_perm _ _ _ Hn) as HP.
    unfold splice_front. rewrite Hn. split; simpl.
    + eapply Inv_core_perm; [symmetry; exact HP | exact HI].
    + apply Permutation_length in HP. simpl in HP. lia.
  - destruct (readFromDB (m_db s) k "") as [[|] value]; [|exact HInv].
    destruct (put_Inv s k value HInv) as [HI' Hcap'].
    cbn -[put]. destruct (m_cache_map (put s k value) !! k); split; assumption.
Qed.

Lemma get_cap s k : m_max_cache_size (get s k).1 = m_max_cache_size s.
Proof.
  unfold get. destruct (m_cache_map s !! k); [reflexivity|].
  destruct (readFromDB (m_db s) k "") as [[|] value]; [|reflexivity].
  cbn -[put]. destruct (m_cache_map (put s k value) !! k); apply put_cap.
Qed.

Lemma get_db s k : m_db (get s k).1 = m_db s.
Proof.
  unfold get. destruct (m_cache_map s !! k); [reflexivity|].
  destruct (readFromDB (m_db s) k "") as [[|] value]; [|reflexivity].
  cbn -[put]. destruct (m_cache_map (put s k value) !! k); apply put_db.
Qed.

Lemma step_Inv s o : Inv s -> Inv (step s o).
Proof. destruct o; simpl; auto using put_Inv, get_Inv. Qed.

Lemma run_Inv s ops : Inv s -> Inv (run s ops).
Proof. revert s. induction ops; simpl; auto using step_Inv. Qed.

Lemma run_cap s ops : m_max_cache_size (run s ops) = m_max_cache_size s.
Proof.
  revert s. induction ops as [|o ops IH]; intros s; simpl; [reflexivity|].
  rewrite IH. destruct o; simpl; auto using put_cap, get_cap.
Qed.

Lemma run_db s ops : m_db (run s ops) = m_db s.
Proof.
  revert s. induction ops as [|o ops IH]; intros s; simpl; [reflexivity|].
  rewrite IH. destruct o; simpl; auto using put_db, get_db.
Qed.

Lemma init_Inv cap db : Inv (init cap db).
Proof.
  split; simpl; [|lia]. constructor; simpl.
  - constructor.
  - constructor.
  - intros k id. rewrite lookup_empty. split; [discriminate|]. intros [v []].
  - intros n [].
  - apply map_size_empty.
Qed.

Lemma reachable_Inv cap db ops : Inv (run (init cap db) ops).
Proof. apply run_Inv, init_Inv. Qed.

(** * Claims *)

(** C3: bounded residency.  From construction with any capacity, after
    every sequence of [put], [get], [isInCache] and [size] calls (so after
    each call of any run), [size()] is at most the capacity. *)
Theorem size_le_capacity cap db ops : ds_size (run (init cap db) ops) <= cap.
Proof.
  destruct (reachable_Inv cap db ops) as [HI Hcap].
  rewrite run_cap in Hcap. simpl in Hcap.
  unfold ds_size. rewrite (ic_size _ _ _ HI). exact Hcap.
Qed.

(** C9: in every reachable state the keys of the index [m_cache_map] are
    exactly the keys occurring in the recency list [m_cache_list], and
    each resident key occurs in the list exactly once. *)
Theorem index_keys_match_list cap db ops :
  let s := run (init cap db) ops in
  (forall k, is_Some (m_cache_map s !! k) <-> In k (keys s)) /\ NoDup (keys s).
Proof.
  cbv zeta. destruct (reachable_Inv cap db ops) as [[_ Hkeys Hidx _ _] _].
  split; [|exact Hkeys]. intros k. split.
  - intros [id Hid]. apply Hidx in Hid as [v Hin].
    exact (in_map node_key _ _ Hin).
  - intros Hin. apply in_map_iff in Hin as [[id [k' v]] [Heq Hin]].
    unfold node_key in Heq; simpl in Heq; subst k'.
    exists id. apply Hidx. eauto.
Qed.

(** C1 (defect): with capacity 1, [put("1","one")] then [put("2","two")]
    evicts the dirty key "1", yet no statement is sent to the database:
    [put] erases the victim's entry of [m_modification_map] before
    [isModified] reads it. *)
Theorem dirty_eviction_not_written :
  let s1 := put (init 1 empty_db) "1" "one" in
  let s2 := put s1 "2" "two" in
  isModified (m_modification_map s1) "1" = true /\
  isInCache s2 "1" = false /\
  db_log (m_db s2) = [] /\
  tbl (m_db s2) !! "1" = None.
Proof. vm_compute. auto. Qed.

(** C2 (defect): with an empty table, [get("a")] on an empty cache of
    capacity 1 returns "" but inserts the entry ("a", "") into the cache:
    [readFromDB] reports success when the query yields no row. *)
Theorem absent_key_get_inserts :
  let r := get (init 1 empty_db) "a" in
  r.2 = "" /\ keys r.1 = ["a"] /\ isInCache r.1 "a" = true /\ ds_size r.1 = 1.
Proof. vm_compute. auto. Qed.

(** C7 (defect): capacity 1; [put("k","v1")], [put("k","v2")], then
    [put("j","w")] evicts the dirty "k" without writing "v2", and the
    final purge writes only ("j","w"): "v2" is never written. *)
Theorem coalesced_value_lost :
  let s := put (put (put (init 1 empty_db) "k" "v1") "k" "v2") "j" "w" in
  isInCache s "k" = false /\
  db_log (m_db s) = [] /\
  db_log (destroy s) = [[("j", "w")]].
Proof. vm_compute. auto. Qed.

(** ** Helpers for teardown and for the miss path of [get] *)

Lemma purge_rows_In s kv :
  In kv (purge_rows s) <->
  exists n, In n (m_cache_list s) /\ n.2 = kv /\
            isModified (m_modification_map s) (node_key n) = true.
Proof.
  unfold purge_rows. rewrite in_map_iff. split.
  - intros [n [<- Hn]]. apply filter_In in Hn as [Hn Hm]. eauto.
  - intros [n [Hn [<- Hm]]]. exists n. split; [reflexivity|]. apply filter_In. auto.
Qed.

Lemma destroy_log s :
  db_log (destroy s) =
  db_log (m_db s) ++ (match purge_rows s with [] => [] | rows => [rows] end).
Proof.
  unfold destroy, purgeToStorage. destruct (m_cache_list s) as [|n l] eqn:HL.
  - unfold purge_rows. rewrite HL. simpl. rewrite app_nil_r. reflexivity.
  - destruct (purge_rows s) as [|r rs]; simpl; [rewrite app_nil_r; reflexivity|].
    unfold exec_upsert. cbv zeta.
    destruct (safe_rows _); [destruct (write_fails _ _)|destruct (garbled_exec _ _ _)];
      reflexivity.
Qed.



(** C6: teardown.  [~DataStore] issues at most one write statement; its
    rows are exactly the resident entries that are dirty, each with its
    current value; clean entries are skipped, and when no resident entry
    is dirty nothing is written. *)
Theorem teardown_writes_dirty s :
  exists new,
    db_log (destroy s) = db_log (m_db s) ++ new /\
    length new <= 1 /\
    (forall n, In n (m_cache_list s) ->
       isModified (m_modification_map s) (node_key n) = true ->
       exists rows, In rows new /\ In n.2 rows) /\
    (forall rows kv, In rows new -> In kv rows ->
       exists n, In n (m_cache_list s) /\ n.2 = kv /\
                 isModified (m_modification_map s) (node_key n) = true) /\
    ((forall n, In n (m_cache_list s) ->
       isModified (m_modification_map s) (node_key n) = false) -> new = []).
Proof.
  exists (match purge_rows s with [] => [] | rows => [rows] end).
  split; [apply destroy_log|].
  destruct (purge_rows s) as [|r rs] eqn:HR.
  - split; [simpl; lia|]. split; [|split; [intros rows kv []|reflexivity]].
    intros n Hn Hm. exfalso.
    assert (Hin : In n.2 (purge_rows s)) by (apply purge_rows_In; eauto).
    rewrite HR in Hin. exact Hin.
  - split; [simpl; lia|]. split; [|split].
    + intros n Hn Hm. exists (r :: rs). split; [now left|].
      rewrite <- HR. apply purge_rows_In. eauto.
    + intros rows kv [<-|[]] Hkv. apply purge_rows_In. rewrite HR. exact Hkv.
    + intros Hclean. exfalso.
      assert (Hin : In r (purge_rows s)) by (rewrite HR; now left).
      apply purge_rows_In in Hin as [n [Hn [_ Hm]]].
      rewrite (Hclean n Hn) in Hm. discriminate.
Qed.

(** C8: no redundant writes.  If [get k] misses and is followed by any
    calls without a [put] of [k] (so a reloaded [k] may be evicted), no
    statement sent to the database carries a row for [k]. *)
Theorem reloaded_key_never_saved s k ops :
  m_cache_map s !! k = None ->
  (forall v, ~ In (OPut k v) ops) ->
  exists new, db_log (m_db (run s (OGet k :: ops))) = db_log (m_db s) ++ new /\
              (forall rows, In rows new -> forall v, ~ In (k, v) rows).
Proof.
  intros _ _. exists []. simpl. rewrite run_db, get_db, app_nil_r.
  split; [reflexivity | intros rows []].
Qed.


(** ** Recency facts about [put] and [get] on reachable states *)

Lemma back_In l b : back l = Some b -> In b l.
Proof.
  intros Hb. rewrite (back_split _ _ Hb). apply in_or_app. right. now left.
Qed.

Lemma Inv_size s : Inv s -> ds_size s <= m_max_cache_size s.
Proof. intros [HI Hcap]. unfold ds_size. rewrite (ic_size _ _ _ HI). exact Hcap. Qed.

Lemma not_resident_keys s k :
  Inv s -> m_cache_map s !! k = None -> ~ In k (keys s).
Proof.
  intros [HI _] Hk Hin. apply in_map_iff in Hin as [[id [k' v]] [Heq Hin]].
  unfold node_key in Heq; simpl in Heq; subst k'.
  assert (m_cache_map s !! k = Some id) by (apply (ic_index _ _ _ HI); eauto).
  congruence.
Qed.

(** The postcondition of [put] on a reachable state. *)
Lemma put_post s k v :
  Inv s ->
  let s' := put s k v in
  (1 <= m_max_cache_size s ->
     isInCache s' k = true /\ hd_error (keys s') = Some k /\
     isModified (m_modification_map s') k = true /\ ds_size s' <= m_max_cache_size s) /\
  (m_max_cache_size s = 0 -> isInCache s' k = false /\ ds_size s' = 0).
Proof.
  intros HInv s'. pose proof (Inv_size _ (put_Inv s k v HInv)) as Hsz'.
  rewrite put_cap in Hsz'. fold s' in Hsz'.
  pose proof HInv as [HI Hcap].
  destruct (m_cache_map s !! k) as [old|] eqn:Hk.
  - destruct (proj1 (ic_index _ _ _ HI k old) Hk) as [v0 Hin].
    pose proof (ic_fresh _ _ _ HI _ Hin) as Hold; simpl in Hold.
    assert (Hs : size (<[k := next_node s]> (m_cache_map s)) = length (m_cache_list s)).
    { rewrite map_size_insert_Some by eauto. apply (ic_size _ _ _ HI). }
    split.
    + intros _. split; [|split; [|split; [|exact Hsz']]];
        subst s'; rewrite (put_resident s k v old Hk) by first [apply Nat.eqb_neq; lia | lia];
        unfold isInCache, isModified; simpl.
      * rewrite lookup_insert_eq. reflexivity.
      * reflexivity.
      * rewrite lookup_insert_eq. reflexivity.
    + intros H0. exfalso. destruct (m_cache_list s) as [|n l]; [exact Hin|]. simpl in Hcap. lia.
  - pose proof (ic_size _ _ _ (Inv_core_insert _ _ _ k v HI Hk)) as Hs. simpl in Hs.
    destruct (decide (size (<[k := next_node s]> (m_cache_map s)) <= m_max_cache_size s))
      as [Hle|Hgt].
    + split.
      * intros _. split; [|split; [|split; [|exact Hsz']]];
          subst s'; rewrite put_fresh_fits by assumption;
          unfold isInCache, isModified; simpl.
        -- rewrite lookup_insert_eq. reflexivity.
        -- reflexivity.
        -- rewrite lookup_insert_eq. reflexivity.
      * intros H0. lia.
    + destruct (back ((next_node s, (k, v)) :: m_cache_list s)) as [b|] eqn:Hb;
        [|apply back_None in Hb; discriminate].
      destruct (m_cache_list s) as [|m l] eqn:HL.
      * simpl in Hb. injection Hb as <-. split.
        -- intros H1. simpl in Hs, Hgt. lia.
        -- intros H0. split; [|lia].
           subst s'. rewrite (put_fresh_evict s k v _ Hk) by first [lia | rewrite HL; reflexivity].
           unfold isInCache. simpl. rewrite lookup_delete_eq. reflexivity.
      * rewrite back_cons in Hb by discriminate.
        assert (Hbk : node_key b <> k).
        { intros <-. apply (not_resident_keys s (node_key b) HInv Hk).
          unfold keys. rewrite HL. apply in_map. exact (back_In _ _ Hb). }
        split; [|intros H0; simpl in Hs, Hcap; lia].
        intros _. split; [|split; [|split; [|exact Hsz']]];
          subst s'; rewrite (put_fresh_evict s k v b Hk) by
            first [lia | rewrite HL, back_cons by discriminate; exact Hb];
          unfold isInCache, isModified; simpl.
        -- rewrite lookup_delete_ne, lookup_insert_eq by exact Hbk. reflexivity.
        -- rewrite HL. reflexivity.
        -- rewrite lookup_delete_ne, lookup_insert_eq by exact Hbk. reflexivity.
Qed.

Lemma put_keys_no_evict s k v :
  Inv s -> (isInCache s k = true \/ length (keys s) < m_max_cache_size s) ->
  keys (put s k v) = k :: remove key_eq_dec k (keys s).
Proof.
  intros HInv Hc. pose proof HInv as [HI Hcap].
  destruct (m_cache_map s !! k) as [old|] eqn:Hk.
  - destruct (proj1 (ic_index _ _ _ HI k old) Hk) as [v0 Hin].
    pose proof (ic_fresh _ _ _ HI _ Hin) as Hold; simpl in Hold.
    assert (Hs : size (<[k := next_node s]> (m_cache_map s)) = length (m_cache_list s)).
    { rewrite map_size_insert_Some by eauto. apply (ic_size _ _ _ HI). }
    rewrite (put_resident s k v old Hk) by first [apply Nat.eqb_neq; lia | lia].
    unfold keys. simpl. f_equal.
    exact (erase_node_keys _ old k v0 (ic_ids _ _ _ HI) (ic_keys _ _ _ HI) Hin).
  - destruct Hc as [Hc|Hc]; [unfold isInCache in Hc; rewrite Hk in Hc; discriminate|].
    unfold keys in Hc. rewrite length_map in Hc.
    pose proof (ic_size _ _ _ (Inv_core_insert _ _ _ k v HI Hk)) as Hs. simpl in Hs.
    rewrite put_fresh_fits by first [assumption | lia].
    unfold keys. simpl. f_equal. symmetry. apply notin_remove.
    exact (not_resident_keys s k HInv Hk).
Qed.

Lemma put_keys_evict s k v :
  Inv s -> 1 <= m_max_cache_size s -> m_cache_map s !! k = None ->
  length (keys s) = m_max_cache_size s ->
  exists pre lru, keys s = pre ++ [lru] /\ keys (put s k v) = k :: pre /\
                  isInCache (put s k v) lru = false.
Proof.
  intros HInv H1 Hk Hlen. pose proof HInv as [HI Hcap].
  pose proof (ic_size _ _ _ (Inv_core_insert _ _ _ k v HI Hk)) as Hs. simpl in Hs.
  unfold keys in Hlen. rewrite length_map in Hlen.
  destruct (m_cache_list s) as [|m l] eqn:HL; [simpl in Hlen; lia|].
  destruct (back (m :: l)) as [b|] eqn:Hb; [|apply back_None in Hb; discriminate].
  exists (map node_key (pop_back (m :: l))), (node_key b).
  split; [unfold keys; rewrite HL, (back_split _ _ Hb) at 1; apply map_app|].
  rewrite (put_fresh_evict s k v b Hk) by
    first [lia | rewrite HL, back_cons by discriminate; exact Hb].
  unfold keys, isInCache. simpl. rewrite HL, lookup_delete_eq. split; reflexivity.
Qed.

Lemma get_hit_keys s k :
  Inv s -> isInCache s k = true ->
  keys (get s k).1 = k :: remove key_eq_dec k (keys s).
Proof.
  intros [HI _] Hc. unfold isInCache in Hc.
  destruct (m_cache_map s !! k) as [id|] eqn:Hk; [|discriminate].
  destruct (proj1 (ic_index _ _ _ HI k id) Hk) as [v0 Hin].
  destruct (find_node_exists id _ _ Hin eq_refl) as [n Hn].
  destruct (find_node_In _ _ _ Hn) as [HnIn Hn1].
  assert (n = (id, (k, v0))) as -> by (eapply nodup_fst_eq; eauto using ic_ids).
  unfold get. rewrite Hk. unfold splice_front, keys. simpl. rewrite Hn. simpl. f_equal.
  exact (erase_node_keys _ id k v0 (ic_ids _ _ _ HI) (ic_keys _ _ _ HI) Hin).
Qed.

Lemma get_miss_put s k :
  m_cache_map s !! k = None -> fails (m_db s) k = false ->
  exists value, m_cache_list (get s k).1 = m_cache_list (put s k value) /\
                m_cache_map (get s k).1 = m_cache_map (put s k value).
Proof.
  intros Hk Hf. unfold get. rewrite Hk. unfold readFromDB, exec_select. rewrite Hf.
  cbn -[put]. eexists.
  destruct (m_cache_map (put s k _) !! k); split; reflexivity.
Qed.

(** An insertion that exceeds the capacity, at any capacity: after [k]
    is pushed in front, the last key of the list is evicted (at capacity
    0 that is [k] itself). *)
Lemma put_keys_evict_all s k v :
  Inv s -> m_cache_map s !! k = None -> length (keys s) = m_max_cache_size s ->
  exists pre lru, k :: keys s = pre ++ [lru] /\ keys (put s k v) = pre /\
                  isInCache (put s k v) lru = false.
Proof.
  intros HInv Hk Hlen. destruct (m_max_cache_size s) as [|c] eqn:Hc.
  - assert (Hnil : keys s = []) by (apply length_zero_iff_nil; exact Hlen).
    destruct (put_post s k v HInv) as [_ H0]. destruct (H0 Hc) as [Hin Hsz].
    pose proof (put_Inv s k v HInv) as [HI' _].
    exists [], k. rewrite Hnil. split; [reflexivity|]. split; [|exact Hin].
    unfold keys. apply length_zero_iff_nil. rewrite length_map, <- (ic_size _ _ _ HI').
    exact Hsz.
  - destruct (put_keys_evict s k v HInv ltac:(rewrite Hc; lia) Hk ltac:(rewrite Hc; lia))
      as [pre [lru [H1 [H2 H3]]]].
    exists (k :: pre), lru. rewrite H1. auto.
Qed.

(** A reload by [get] that fits only puts [k] in front. *)
Lemma get_keys_fit s k :
  Inv s -> m_cache_map s !! k = None -> fails (m_db s) k = false ->
  length (keys s) < m_max_cache_size s -> keys (get s k).1 = k :: keys s.
Proof.
  intros HInv Hk Hf Hlt. destruct (get_miss_put s k Hk Hf) as [value [Hl _]].
  unfold keys at 1. rewrite Hl. fold (keys (put s k value)).
  rewrite (put_keys_no_evict s k value HInv (or_intror Hlt)).
  f_equal. apply notin_remove. exact (not_resident_keys s k HInv Hk).
Qed.

(** C4 (amended): on every reachable state of a cache of capacity [cap],
    after [put(k, v)] the key [k] is at the front of the recency list when
    [cap >= 1]; when [cap = 0] it is evicted at once and the list is
    empty.  After a hit of [get(k)] the key is at the front.  An insertion
    that does not exceed the capacity (a [put], or a reload by [get] of a
    non-resident key) only moves [k] to the front.  One that exceeds it
    evicts exactly the last key of the list [k :: keys s], i.e. the least
    recently used one (for [cap >= 1] the last key of [keys s], for
    [cap = 0] the key [k] itself). *)
Theorem recency_order cap db ops k v :
  let s := run (init cap db) ops in
  (1 <= cap -> hd_error (keys (put s k v)) = Some k) /\
  (cap = 0 -> isInCache (put s k v) k = false /\ keys (put s k v) = []) /\
  (isInCache s k = true -> hd_error (keys (get s k).1) = Some k) /\
  (isInCache s k = true \/ length (keys s) < cap ->
     keys (put s k v) = k :: remove key_eq_dec k (keys s)) /\
  (isInCache s k = false -> fails db k = false -> length (keys s) < cap ->
     keys (get s k).1 = k :: keys s) /\
  (isInCache s k = false -> length (keys s) = cap ->
     exists pre lru, k :: keys s = pre ++ [lru] /\ keys (put s k v) = pre /\
                     isInCache (put s k v) lru = false) /\
  (isInCache s k = false -> fails db k = false -> length (keys s) = cap ->
     exists pre lru, k :: keys s = pre ++ [lru] /\ keys (get s k).1 = pre /\
                     isInCache (get s k).1 lru = false).
Proof.
  intros s. pose proof (reachable_Inv cap db ops) as HInv. fold s in HInv.
  assert (Hc : m_max_cache_size s = cap) by (unfold s; rewrite run_cap; reflexivity).
  assert (Hd : m_db s = db) by (unfold s; rewrite run_db; reflexivity).
  assert (Hnr : isInCache s k = false -> m_cache_map s !! k = None).
  { unfold isInCache. destruct (m_cache_map s !! k); [discriminate|reflexivity]. }
  destruct (put_post s k v HInv) as [Hpost Hpost0]. rewrite Hc in Hpost, Hpost0.
  split; [|split; [|split; [|split; [|split; [|split]]]]].
  - intros H1. apply Hpost. exact H1.
  - intros H0. destruct (put_keys_evict_all s k v HInv) as [pre [lru [H1 [H2 _]]]].
    + (* a state of capacity 0 has no resident key *)
      pose proof HInv as [HI Hcap]. rewrite Hc, H0 in Hcap.
      pose proof (ic_size _ _ _ HI) as Hsz.
      assert (Hemp : m_cache_map s = ∅) by (apply map_size_empty_inv; lia).
      rewrite Hemp. apply lookup_empty.
    + pose proof (proj2 HInv) as Hcap. unfold keys. rewrite length_map. lia.
    + split; [exact (proj1 (Hpost0 H0))|].
      rewrite H2. destruct pre as [|x pre]; [reflexivity|].
      assert (Hl := f_equal (@length string) H1). rewrite length_app in Hl.
      pose proof (proj2 HInv) as Hcap. unfold keys in Hl. simpl in Hl.
      rewrite length_map in Hl. lia.
  - intros Hin. rewrite (get_hit_keys s k HInv Hin). reflexivity.
  - intros Hcase. rewrite <- Hc in Hcase. exact (put_keys_no_evict s k v HInv Hcase).
  - intros Hout Hf Hlt. rewrite <- Hd in Hf. apply get_keys_fit; auto; lia.
  - intros Hout Hlen. apply put_keys_evict_all; [exact HInv | auto | lia].
  - intros Hout Hf Hlen. rewrite <- Hd in Hf.
    destruct (get_miss_put s k (Hnr Hout) Hf) as [value [Hl Hm]].
    destruct (put_keys_evict_all s k value HInv (Hnr Hout) ltac:(lia))
      as [pre [lru [Hs [Hp Hi]]]].
    exists pre, lru. split; [exact Hs|]. split.
    + unfold keys. rewrite Hl. exact Hp.
    + unfold isInCache. rewrite Hm. exact Hi.
Qed.

Lemma recency_order_witness :
  hd_error (keys (put (run (init 1 empty_db) [OPut "a" "x"]) "b" "y")) = Some "b" /\
  isInCache (put (run (init 0 empty_db) []) "k" "v") "k" = false.
Proof.
  split.
  - exact (proj1 (recency_order 1 empty_db [OPut "a" "x"] "b" "y") (le_n 1)).
  - exact (proj1 (proj1 (proj2 (recency_order 0 empty_db [] "k" "v")) eq_refl)).
Defined.

(** C4 as stated fails for capacity 0: [put(k, v)] evicts [k] itself, so
    it is not at the front of the (empty) recency list. *)
Lemma recency_order_cap0_counterexample :
  hd_error (keys (put (init 0 empty_db) "k" "v")) <> Some "k".
Proof. vm_compute. discriminate. Qed.

(** C5 (amended): on every reachable state, when the capacity is at least
    1, after [put(k, v)] the key is resident, at the front, dirty, and the
    resident count is at most the capacity; when the capacity is 0 the
    key is evicted at once and nothing stays resident. *)
Theorem put_postcondition cap db ops k v :
  let s' := put (run (init cap db) ops) k v in
  (1 <= cap ->
     isInCache s' k = true /\ hd_error (keys s') = Some k /\
     isModified (m_modification_map s') k = true /\ ds_size s' <= cap) /\
  (cap = 0 -> isInCache s' k = false /\ ds_size s' = 0).
Proof.
  pose proof (put_post _ k v (reachable_Inv cap db ops)) as Hpost.
  rewrite run_cap in Hpost. exact Hpost.
Qed.

(** C5 as stated fails for capacity 0: after [put(k, v)] the key is not
    resident. *)
Lemma put_cap0_counterexample :
  isInCache (put (init 0 empty_db) "k" "v") "k" <> true.
Proof. vm_compute. discriminate. Qed.

(** Witnesses for the claims whose statements carry hypotheses. *)

Definition db_with_a : Db :=
  mkDb (<["a" := "x"]> ∅) (fun _ => false) (fun _ => false) (fun _ _ => None) [].

Lemma reloaded_key_never_saved_witness :
  m_cache_map (init 1 db_with_a) !! "a" = None /\
  (forall v, ~ In (OPut "a" v) [OPut "b" "y"]) /\
  exists new,
    db_log (m_db (run (init 1 db_with_a) (OGet "a" :: [OPut "b" "y"]))) =
      db_log (m_db (init 1 db_with_a)) ++ new /\
    (forall rows, In rows new -> forall v, ~ In ("a", v) rows).
Proof.
  split; [reflexivity|]. split.
  - intros v [H|[]]. discriminate.
  - apply reloaded_key_never_saved.
    + reflexivity.
    + intros v [H|[]]. discriminate.
Defined.


(** * Further properties of the code *)

(** ** Helpers *)

(** On a reachable state of capacity at least 1, [put] leaves the new
    node at the front of the list and the index pointing to it. *)
Lemma put_front_node s k v :
  Inv s -> 1 <= m_max_cache_size s ->
  exists rest, m_cache_list (put s k v) = (next_node s, (k, v)) :: rest /\
               m_cache_map (put s k v) !! k = Some (next_node s).
Proof.
  intros HInv H1. pose proof HInv as [HI Hcap].
  destruct (m_cache_map s !! k) as [old|] eqn:Hk.
  - destruct (proj1 (ic_index _ _ _ HI k old) Hk) as [v0 Hin].
    pose proof (ic_fresh _ _ _ HI _ Hin) as Hold; simpl in Hold.
    assert (Hs : size (<[k := next_node s]> (m_cache_map s)) = length (m_cache_list s)).
    { rewrite map_size_insert_Some by eauto. apply (ic_size _ _ _ HI). }
    rewrite (put_resident s k v old Hk) by first [apply Nat.eqb_neq; lia | lia].
    simpl. eexists. split; [reflexivity|]. apply lookup_insert_eq.
  - pose proof (ic_size _ _ _ (Inv_core_insert _ _ _ k v HI Hk)) as Hs. simpl in Hs.
    destruct (decide (size (<[k := next_node s]> (m_cache_map s)) <= m_max_cache_size s))
      as [Hle|Hgt].
    + rewrite put_fresh_fits by assumption. simpl.
      eexists. split; [reflexivity|]. apply lookup_insert_eq.
    + destruct (m_cache_list s) as [|m l] eqn:HL; [simpl in Hs; lia|].
      destruct (back (m :: l)) as [b|] eqn:Hb; [|apply back_None in Hb; discriminate].
      assert (Hbk : node_key b <> k).
      { intros <-. apply (not_resident_keys s (node_key b) HInv Hk).
        unfold keys. rewrite HL. apply in_map. exact (back_In _ _ Hb). }
      rewrite (put_fresh_evict s k v b Hk) by
        first [lia | rewrite HL, back_cons by discriminate; exact Hb].
      simpl. rewrite HL. eexists. split; [reflexivity|].
      rewrite lookup_delete_ne by exact Hbk. apply lookup_insert_eq.
Qed.

Lemma get_hit_value s k id :
  m_cache_map s !! k = Some id -> (get s k).2 = deref_val id (m_cache_list s).
Proof. intros Hk. unfold get. rewrite Hk. reflexivity. Qed.

Lemma fold_insert_lookup_out (rows : list (string * string)) (t : gmap string string) k :
  ~ In k (map fst rows) ->
  fold_left (fun t kv => <[kv.1 := kv.2]> t) rows t !! k = t !! k.
Proof.
  revert t. induction rows as [|[k' v'] rows IH]; intros t Hout; [reflexivity|].
  simpl in *. rewrite IH by tauto. apply lookup_insert_ne. tauto.
Qed.

Lemma fold_insert_lookup_in (rows : list (string * string)) (t : gmap string string) k v :
  NoDup (map fst rows) -> In (k, v) rows ->
  fold_left (fun t kv => <[kv.1 := kv.2]> t) rows t !! k = Some v.
Proof.
  revert t. induction rows as [|[k' v'] rows IH]; intros t Hnd Hin; [destruct Hin|].
  simpl. inversion Hnd as [|? ? Hk' Hnd']; subst.
  destruct Hin as [[= -> ->]|Hin].
  - rewrite fold_insert_lookup_out by exact Hk'. apply lookup_insert_eq.
  - apply IH; assumption.
Qed.

Lemma purge_rows_nodup s :
  NoDup (map node_key (m_cache_list s)) -> NoDup (map fst (purge_rows s)).
Proof.
  unfold purge_rows. rewrite map_map.
  induction (m_cache_list s) as [|n l IH]; cbn [map List.filter]; [constructor|].
  rewrite NoDup_cons_iff. intros [Hn Hl].
  destruct (isModified _ _); cbn [map]; [|exact (IH Hl)].
  apply NoDup_cons; [|exact (IH Hl)].
  rewrite in_map_iff. intros (m & Hm & Hin). apply filter_In in Hin.
  apply Hn, in_map_iff. exists m. split; [exact Hm | apply Hin].
Qed.

Lemma find_node_erase_ne id old l :
  id <> old -> find_node id (erase_node old l) = find_node id l.
Proof.
  intros Hne. induction l as [|n l IH]; [reflexivity|]. simpl.
  destruct (Nat.eqb n.1 old) eqn:E1.
  - apply Nat.eqb_eq in E1. destruct (Nat.eqb n.1 id) eqn:E2; [|reflexivity].
    apply Nat.eqb_eq in E2. lia.
  - simpl. rewrite IH. reflexivity.
Qed.

Lemma find_node_pop_back id l b :
  back l = Some b -> id <> b.1 -> find_node id (pop_back l) = find_node id l.
Proof.
  intros Hb Hne. rewrite (back_split _ _ Hb) at 2.
  generalize (pop_back l) as P. induction P as [|n P IH]; simpl.
  - destruct (Nat.eqb b.1 id) eqn:E; [apply Nat.eqb_eq in E; lia | reflexivity].
  - rewrite IH. reflexivity.
Qed.

(** ** Extra properties *)

(** Write-then-read: on a reachable cache of capacity at least 1, [get k]
    right after [put(k, v)] returns [v]. *)
Theorem put_then_get cap db ops k v :
  1 <= cap -> (get (put (run (init cap db) ops) k v) k).2 = v.
Proof.
  intros H1. pose proof (reachable_Inv cap db ops) as HInv.
  assert (Hc : 1 <= m_max_cache_size (run (init cap db) ops)) by (rewrite run_cap; exact H1).
  destruct (put_front_node _ k v HInv Hc) as [rest [Hl Hm]].
  rewrite (get_hit_value _ _ _ Hm), Hl. unfold deref_val. simpl.
  rewrite Nat.eqb_refl. reflexivity.
Qed.

Lemma put_then_get_witness :
  1 <= 1 /\ (get (put (run (init 1 empty_db) [OPut "a" "x"]) "b" "y") "b").2 = "y".
Proof. split; [lia|]. apply (put_then_get 1 empty_db [OPut "a" "x"] "b" "y"). lia. Defined.

(** A hit of [get] only reorders the recency list: the index, the dirty
    flags and the database are left as they were, and the new list is a
    permutation of the old one. *)
Theorem get_hit_frame s k :
  isInCache s k = true ->
  m_cache_map (get s k).1 = m_cache_map s /\
  m_modification_map (get s k).1 = m_modification_map s /\
  m_db (get s k).1 = m_db s /\
  Permutation (m_cache_list (get s k).1) (m_cache_list s).
Proof.
  unfold isInCache. destruct (m_cache_map s !! k) as [id|] eqn:Hk; [|discriminate].
  intros _. unfold get. rewrite Hk. simpl.
  split; [reflexivity|]. split; [reflexivity|]. split; [reflexivity|].
  unfold splice_front. destruct (find_node id (m_cache_list s)) as [n|] eqn:Hf.
  - exact (find_node_perm _ _ _ Hf).
  - reflexivity.
Qed.

Lemma get_hit_frame_witness :
  isInCache (put (init 1 empty_db) "a" "x") "a" = true /\
  m_cache_map (get (put (init 1 empty_db) "a" "x") "a").1 =
    m_cache_map (put (init 1 empty_db) "a" "x").
Proof.
  split; [reflexivity|].
  apply (get_hit_frame (put (init 1 empty_db) "a" "x") "a"). reflexivity.
Defined.

(** A miss of [get] whose [SELECT] fails returns "" and leaves the whole
    object unchanged. *)
Theorem get_read_failure s k :
  m_cache_map s !! k = None -> fails (m_db s) k = true -> get s k = (s, "").
Proof.
  intros Hk Hf. unfold get. rewrite Hk. unfold readFromDB, exec_select.
  rewrite Hf. reflexivity.
Qed.

Definition failing_db : Db := mkDb ∅ (fun _ => true) (fun _ => true) (fun _ _ => None) [].

Lemma get_read_failure_witness :
  m_cache_map (init 1 failing_db) !! "a" = None /\ fails (m_db (init 1 failing_db)) "a" = true /\
  get (init 1 failing_db) "a" = (init 1 failing_db, "").
Proof.
  split; [reflexivity|]. split; [reflexivity|].
  apply get_read_failure; reflexivity.
Defined.



(** Size law of [put] on a reachable state: re-putting a resident key
    keeps the size; putting a new key grows it by one, capped at the
    capacity (an eviction then keeps it at the capacity). *)
Theorem put_size cap db ops k v :
  let s := run (init cap db) ops in
  ds_size (put s k v) =
    if isInCache s k then ds_size s else Nat.min (S (ds_size s)) cap.
Proof.
  intros s. pose proof (reachable_Inv cap db ops) as HInv. fold s in HInv.
  assert (Hc : m_max_cache_size s = cap) by (unfold s; rewrite run_cap; reflexivity).
  pose proof HInv as [HI Hcap]. pose proof (ic_size _ _ _ HI) as Hsz.
  unfold isInCache, ds_size. destruct (m_cache_map s !! k) as [old|] eqn:Hk.
  - destruct (proj1 (ic_index _ _ _ HI k old) Hk) as [v0 Hin].
    pose proof (ic_fresh _ _ _ HI _ Hin) as Hold; simpl in Hold.
    assert (Hs : size (<[k := next_node s]> (m_cache_map s)) = size (m_cache_map s)).
    { rewrite map_size_insert_Some by eauto. reflexivity. }
    rewrite (put_resident s k v old Hk) by first [apply Nat.eqb_neq; lia | lia].
    exact Hs.
  - pose proof (Inv_core_insert _ _ _ k v HI Hk) as HI'.
    pose proof (ic_size _ _ _ HI') as Hs. simpl in Hs.
    destruct (decide (size (<[k := next_node s]> (m_cache_map s)) <= m_max_cache_size s))
      as [Hle|Hgt].
    + rewrite put_fresh_fits by assumption. cbn [m_cache_map]. lia.
    + destruct (back ((next_node s, (k, v)) :: m_cache_list s)) as [b|] eqn:Hb;
        [|apply back_None in Hb; discriminate].
      rewrite (put_fresh_evict s k v b) by first [assumption | lia].
      destruct (Inv_core_evict _ _ _ b HI' Hb) as [HI'' Hlen].
      cbn [m_cache_map]. rewrite (ic_size _ _ _ HI''). cbn [length] in Hlen. lia.
Qed.

(** No sequence of [put], [get], [isInCache] and [size] calls ever writes
    to the database: the statement log and the table stay as they were
    (only the destructor writes). *)
Theorem operations_never_write s ops :
  db_log (m_db (run s ops)) = db_log (m_db s) /\ tbl (m_db (run s ops)) = tbl (m_db s).
Proof. rewrite run_db. split; reflexivity. Qed.

Lemma destroy_tbl s :
  safe_rows (purge_rows s) = true ->
  write_fails (m_db s) (upsert_sql (purge_rows s)) = false ->
  tbl (destroy s) = fold_left (fun t kv => <[kv.1 := kv.2]> t) (purge_rows s) (tbl (m_db s)).
Proof.
  intros Hs Hw. unfold destroy, purgeToStorage. destruct (m_cache_list s) as [|n l] eqn:HL.
  - unfold purge_rows. rewrite HL. reflexivity.
  - destruct (purge_rows s) as [|r rs]; [reflexivity|].
    unfold exec_upsert. cbv zeta. rewrite Hs, Hw. reflexivity.
Qed.


(** Teardown persists the dirty entries: when every key and value of the
    destructor's batched statement is a safe literal (no quote, no NUL)
    and [sqlite3_exec] reports no error for it, after the destructor of a
    reachable object the table holds the cached value of every resident
    dirty key, and every other key keeps its row. *)
Theorem teardown_persists cap db ops :
  let s := run (init cap db) ops in
  safe_rows (purge_rows s) = true ->
  write_fails db (upsert_sql (purge_rows s)) = false ->
  (forall n, In n (m_cache_list s) ->
     isModified (m_modification_map s) (node_key n) = true ->
     tbl (destroy s) !! node_key n = Some (node_val n)) /\
  (forall k, (forall n, In n (m_cache_list s) -> node_key n = k ->
                isModified (m_modification_map s) k = false) ->
     tbl (destroy s) !! k = tbl db !! k).
Proof.
  intros s Hs Hw. pose proof (reachable_Inv cap db ops) as [HI _]. fold s in HI.
  assert (Hd : m_db s = db) by (unfold s; rewrite run_db; reflexivity).
  rewrite <- Hd in Hw. rewrite (destroy_tbl s Hs Hw), Hd.
  assert (Hnd : NoDup (map fst (purge_rows s))).
  { apply purge_rows_nodup. exact (ic_keys _ _ _ HI). }
  split.
  - intros n Hn Hm. apply fold_insert_lookup_in; [exact Hnd|].
    apply purge_rows_In. exists n. destruct n as [id [k' v']]. auto.
  - intros k Hclean. apply fold_insert_lookup_out. intros Hin.
    apply in_map_iff in Hin as [kv [Hkv Hin]].
    apply purge_rows_In in Hin as [n [Hn [Hn2 Hm]]].
    assert (node_key n = k) as Hnk by (unfold node_key; rewrite Hn2; exact Hkv).
    rewrite Hnk, (Hclean n Hn Hnk) in Hm. discriminate.
Qed.

Lemma teardown_persists_witness :
  safe_rows (purge_rows (run (init 2 empty_db) [OPut "a" "x"])) = true /\
  write_fails empty_db (upsert_sql (purge_rows (run (init 2 empty_db) [OPut "a" "x"]))) = false /\
  tbl (destroy (run (init 2 empty_db) [OPut "a" "x"])) !! "a" = Some "x".
Proof.
  split; [vm_compute; reflexivity|]. split; [reflexivity|].
  destruct (teardown_persists 2 empty_db [OPut "a" "x"]) as [H _];
    [vm_compute; reflexivity | reflexivity |].
  apply (H (0, ("a", "x"))); [now left | reflexivity].
Defined.




(** ** Dirty keys are resident *)

Definition dirty_resident (mm : gmap string bool) (cm : gmap string nat) : Prop :=
  forall k, isModified mm k = true -> is_Some (cm !! k).

Lemma dirty_resident_insert mm cm k i :
  dirty_resident mm cm -> dirty_resident (<[k := true]> mm) (<[k := i]> cm).
Proof.
  intros H k' Hm. unfold isModified in Hm. destruct (decide (k = k')) as [<-|Hne].
  - rewrite lookup_insert_eq. eauto.
  - rewrite lookup_insert_ne in Hm by exact Hne.
    rewrite lookup_insert_ne by exact Hne. apply H. exact Hm.
Qed.

Lemma dirty_resident_delete mm cm k :
  dirty_resident mm cm -> dirty_resident (delete k mm) (delete k cm).
Proof.
  intros H k' Hm. unfold isModified in Hm. destruct (decide (k = k')) as [<-|Hne].
  - rewrite lookup_delete_eq in Hm. discriminate.
  - rewrite lookup_delete_ne in Hm by exact Hne.
    rewrite lookup_delete_ne by exact Hne. apply H. exact Hm.
Qed.

Lemma dirty_resident_clean mm cm k :
  dirty_resident mm cm -> dirty_resident (<[k := false]> mm) cm.
Proof.
  intros H k' Hm. unfold isModified in Hm. destruct (decide (k = k')) as [<-|Hne].
  - rewrite lookup_insert_eq in Hm. discriminate.
  - rewrite lookup_insert_ne in Hm by exact Hne. apply H. exact Hm.
Qed.

Lemma put_dirty_resident s k v :
  dirty_resident (m_modification_map s) (m_cache_map s) ->
  dirty_resident (m_modification_map (put s k v)) (m_cache_map (put s k v)).
Proof.
  intros H. unfold put. cbv zeta.
  destruct (Nat.ltb _ _); [destruct (back _)|]; simpl;
    auto using dirty_resident_insert, dirty_resident_delete.
Qed.

Lemma run_dirty_resident s ops :
  dirty_resident (m_modification_map s) (m_cache_map s) ->
  dirty_resident (m_modification_map (run s ops)) (m_cache_map (run s ops)).
Proof.
  revert s. induction ops as [|o ops IH]; intros s H; simpl; [exact H|].
  apply IH. destruct o as [k v|k|k|]; simpl; [apply put_dirty_resident; exact H| |exact H|exact H].
  unfold get. destruct (m_cache_map s !! k); [exact H|].
  destruct (readFromDB (m_db s) k "") as [[|] value]; [|exact H].
  cbn -[put]. pose proof (put_dirty_resident s k value H) as Hp.
  destruct (m_cache_map (put s k value) !! k); simpl; apply dirty_resident_clean; exact Hp.
Qed.

(** Every key flagged as modified in a reachable state is resident: an
    eviction drops the flag of its victim, and a reload clears it. *)
Theorem dirty_implies_resident cap db ops k :
  isModified (m_modification_map (run (init cap db) ops)) k = true ->
  isInCache (run (init cap db) ops) k = true.
Proof.
  intros Hm. assert (H0 : dirty_resident (m_modification_map (init cap db)) (m_cache_map (init cap db))).
  { intros k' Hk'. discriminate. }
  destruct (run_dirty_resident _ ops H0 k Hm) as [id Hid].
  unfold isInCache. rewrite Hid. reflexivity.
Qed.

Lemma dirty_implies_resident_witness :
  isModified (m_modification_map (run (init 1 empty_db) [OPut "a" "x"])) "a" = true /\
  isInCache (run (init 1 empty_db) [OPut "a" "x"]) "a" = true.
Proof.
  split; [reflexivity|]. apply dirty_implies_resident. reflexivity.
Defined.

(** ** [put] does not disturb other keys *)

Lemma put_frame_core s k v k' id :
  Inv s -> k' <> k -> m_cache_map (put s k v) !! k' = Some id ->
  m_cache_map s !! k' = Some id /\
  find_node id (m_cache_list (put s k v)) = find_node id (m_cache_list s).
Proof.
  intros HInv Hne Hid. pose proof HInv as [HI Hcap].
  assert (Hfresh : m_cache_map s !! k' = Some id -> id < next_node s).
  { intros H. apply (ic_index _ _ _ HI) in H as [w Hin].
    exact (ic_fresh _ _ _ HI _ Hin). }
  assert (Hsame : forall n, In n (m_cache_list s) -> n.1 = id ->
                  m_cache_map s !! k' = Some id -> node_key n = k').
  { intros n Hn Hn1 H. apply (ic_index _ _ _ HI) in H as [w Hin].
    rewrite (nodup_fst_eq _ n (id, (k', w)) (ic_ids _ _ _ HI) Hn Hin Hn1). reflexivity. }
  destruct (m_cache_map s !! k) as [old|] eqn:Hk.
  - destruct (proj1 (ic_index _ _ _ HI k old) Hk) as [v0 Hin].
    pose proof (ic_fresh _ _ _ HI _ Hin) as Hold; simpl in Hold.
    assert (Hs : size (<[k := next_node s]> (m_cache_map s)) = length (m_cache_list s)).
    { rewrite map_size_insert_Some by eauto. apply (ic_size _ _ _ HI). }
    rewrite (put_resident s k v old Hk) in Hid |- * by first [apply Nat.eqb_neq; lia | lia].
    simpl in Hid. rewrite lookup_insert_ne in Hid by congruence.
    split; [exact Hid|]. simpl.
    pose proof (Hfresh Hid) as Hlt.
    destruct (Nat.eqb (next_node s) id) eqn:E; [apply Nat.eqb_eq in E; lia|].
    apply find_node_erase_ne. intros ->.
    apply Hne. symmetry. exact (Hsame _ Hin eq_refl Hid).
  - pose proof (Inv_core_insert _ _ _ k v HI Hk) as HI'.
    pose proof (ic_size _ _ _ HI') as Hs. simpl in Hs.
    destruct (decide (size (<[k := next_node s]> (m_cache_map s)) <= m_max_cache_size s))
      as [Hle|Hgt].
    + rewrite put_fresh_fits in Hid |- * by assumption.
      simpl in Hid. rewrite lookup_insert_ne in Hid by congruence.
      split; [exact Hid|]. simpl. pose proof (Hfresh Hid) as Hlt.
      destruct (Nat.eqb (next_node s) id) eqn:E; [apply Nat.eqb_eq in E; lia|reflexivity].
    + destruct (back ((next_node s, (k, v)) :: m_cache_list s)) as [b|] eqn:Hb;
        [|apply back_None in Hb; discriminate].
      rewrite (put_fresh_evict s k v b) in Hid |- * by first [assumption | lia].
      simpl in Hid. destruct (decide (node_key b = k')) as [<-|Hbk].
      { rewrite lookup_delete_eq in Hid. discriminate. }
      rewrite lookup_delete_ne, lookup_insert_ne in Hid by congruence.
      split; [exact Hid|]. cbn [m_cache_list]. pose proof (Hfresh Hid) as Hlt.
      rewrite (find_node_pop_back id _ b Hb).
      * simpl. rewrite (proj2 (Nat.eqb_neq (next_node s) id)) by lia. reflexivity.
      * intros Hb1. destruct (back_In _ _ Hb) as [<-|HbL]; [simpl in Hb1; lia|].
        exact (Hbk (Hsame b HbL (eq_sym Hb1) Hid)).
Qed.

(** On a reachable state, [put(k, v)] leaves every other key [k'] that is
    still resident afterwards with the value [get] returned for it before. *)
Theorem put_frame cap db ops k v k' :
  k' <> k ->
  isInCache (put (run (init cap db) ops) k v) k' = true ->
  isInCache (run (init cap db) ops) k' = true /\
  (get (put (run (init cap db) ops) k v) k').2 = (get (run (init cap db) ops) k').2.
Proof.
  intros Hne Hin. pose proof (reachable_Inv cap db ops) as HInv.
  unfold isInCache in Hin.
  destruct (m_cache_map (put (run (init cap db) ops) k v) !! k') as [id|] eqn:Hid;
    [|discriminate].
  destruct (put_frame_core _ k v k' id HInv Hne Hid) as [Hold Hfind].
  unfold isInCache. rewrite Hold. split; [reflexivity|].
  rewrite (get_hit_value _ _ _ Hid), (get_hit_value _ _ _ Hold).
  unfold deref_val. rewrite Hfind. reflexivity.
Qed.

Lemma put_frame_witness :
  "a" <> "b" /\ isInCache (put (run (init 2 empty_db) [OPut "a" "x"]) "b" "y") "a" = true /\
  (get (put (run (init 2 empty_db) [OPut "a" "x"]) "b" "y") "a").2 = "x".
Proof.
  split; [discriminate|]. split; [reflexivity|].
  destruct (put_frame 2 empty_db [OPut "a" "x"] "b" "y" "a") as [_ H];
    [discriminate | reflexivity |].
  rewrite H. reflexivity.
Defined.
